(** * Active Harmony code server: a shallow embedding of
      [code-server/standalone/code_generator.cxx] and proofs about it.

    The coordinator keeps a registry of generator slots ([gen_list]), reads
    point messages from files, forks one worker per point and publishes a
    result file when a worker has been reaped.  Each C++ function that the
    properties below talk about is transcribed as a Rocq function: C strings
    and [std::string] are [list ascii], pointers into a buffer are offsets
    ([nat]), [int]/[long] values are [Z], the file system is a finite map and
    calls into the operating system take their outcome as an argument. *)

From Stdlib Require Import ZArith Ascii String Lia Bool.
From stdpp Require Import gmap strings list.

Local Open Scope Z_scope.
Local Open Scope nat_scope.

(** ** C strings *)

Abbreviation str := (list ascii).

Definition lit (s : string) : str := list_ascii_of_string s.

Definition NUL : ascii := ascii_of_nat 0.
Definition comma : ascii := ","%char.

Definition code (c : ascii) : Z := Z.of_nat (nat_of_ascii c).

(** [isspace] in the C locale: space, and the controls [\t \n \v \f \r]. *)
Definition isspace (c : ascii) : bool :=
  ((code c =? 32) || ((9 <=? code c) && (code c <=? 13)))%Z.

(** [*p] for a pointer at offset [p] of the buffer [mem]; outside the
    modelled bytes a read yields [NUL]. *)
Definition peek (mem : str) (p : nat) : ascii := default NUL (mem !! p).

(** [std::string::empty]. *)
Definition empty (s : str) : bool :=
  match s with
  | [] => true
  | _ :: _ => false
  end.

(** [string(first, last)]: the characters in [[first, last)]. *)
Definition substr (mem : str) (first last : nat) : str :=
  take (last - first) (drop first mem).

(** ** Printing a [long] with [operator<<] *)

Definition digit_char (d : Z) : ascii := ascii_of_nat (Z.to_nat (48 + d)).

Fixpoint dec_digits (fuel : nat) (n : Z) : str :=
  match fuel with
  | O => []
  | S f => if (n <? 10)%Z then [digit_char n]
           else dec_digits f (n / 10)%Z ++ [digit_char (n mod 10)%Z]
  end.

(** A 64-bit [long] has at most 19 decimal digits. *)
Definition string_of_long (n : Z) : str :=
  if (n <? 0)%Z then "-"%char :: dec_digits 20 (- n)%Z else dec_digits 20 n.

(** ** [strtol] with base 0 (C library, LP64) *)

Definition LONG_MAX : Z := (2 ^ 63 - 1)%Z.
Definition LONG_MIN : Z := (- 2 ^ 63)%Z.

Definition digit_val (c : ascii) : option Z :=
  let n := code c in
  if ((48 <=? n) && (n <=? 57))%Z then Some (n - 48)%Z
  else if ((97 <=? n) && (n <=? 122))%Z then Some (n - 97 + 10)%Z
  else if ((65 <=? n) && (n <=? 90))%Z then Some (n - 65 + 10)%Z
  else None.

Definition is_digit_in (base : Z) (c : ascii) : bool :=
  match digit_val c with
  | Some d => (d <? base)%Z
  | None => false
  end.

Fixpoint strtol_space (mem : str) (fuel p : nat) : nat :=
  match fuel with
  | O => p
  | S f => if isspace (peek mem p) then strtol_space mem f (S p) else p
  end.

Fixpoint strtol_digits (mem : str) (base : Z) (fuel p : nat) (acc : Z)
  : Z * nat :=
  match fuel with
  | O => (acc, p)
  | S f =>
      match digit_val (peek mem p) with
      | Some d =>
          if (d <? base)%Z
          then strtol_digits mem base f (S p) (acc * base + d)%Z
          else (acc, p)
      | None => (acc, p)
      end
  end.

Section Strtol.
(** Whether the C library reports [EINVAL] when no digits are found
    (BSD does, glibc does not; the C standard leaves it open). *)
Variable noconv_errno : bool.

(** [strtol(nptr, &endptr, 0)]: the value, [endptr], and whether [errno]
    was set. *)
Definition strtol (mem : str) (nptr : nat) : Z * nat * bool :=
  let fuel := S (length mem) in
  let p0 := strtol_space mem fuel nptr in
  let '(neg, p1) :=
    if Ascii.eqb (peek mem p0) "-" then (true, S p0)
    else if Ascii.eqb (peek mem p0) "+" then (false, S p0)
    else (false, p0) in
  let '(base, p2) :=
    if Ascii.eqb (peek mem p1) "0"
       && (Ascii.eqb (peek mem (S p1)) "x" || Ascii.eqb (peek mem (S p1)) "X")
       && is_digit_in 16 (peek mem (S (S p1)))
    then (16%Z, S (S p1))
    else if Ascii.eqb (peek mem p1) "0" then (8%Z, p1)
    else (10%Z, p1) in
  let '(acc, q) := strtol_digits mem base fuel p2 0%Z in
  if q =? p2 then (0%Z, nptr, noconv_errno)
  else
    let v := if neg : bool then (- acc)%Z else acc in
    if (LONG_MAX <? v)%Z then (LONG_MAX, q, true)
    else if (v <? LONG_MIN)%Z then (LONG_MIN, q, true)
    else (v, q, false).
End Strtol.

(** ** Messages and generator slots *)

(** Modelled from the spec: [hval_t] is declared in a header that is not
    among the sources.  A point is an ordered sequence of typed scalar values
    (integer, real, or enumerated string), here as [index_value] produces
    them; a real is kept as its 64-bit pattern. *)
Inductive hval_t :=
| HVAL_INT (i : Z)
| HVAL_REAL (r : Z)
| HVAL_STR (s : str).

(** Modelled from the spec: [hmesg_t] and [HMESG_INITIALIZER] are declared
    in a header that is not among the sources.  Only the parts the code
    server touches are kept: the raw envelope [buf] and the values of the
    candidate point [data.fetch.cand], already resolved by [index_value]. *)
Record hmesg_t := {
  mesg_buf : list Byte.byte;
  mesg_cand : list hval_t
}.

Definition HMESG_INITIALIZER : hmesg_t :=
  {| mesg_buf := []; mesg_cand := [] |}.

Record generator_t := {
  pid : Z;
  step : Z;
  mesg : hmesg_t;
  hostname : str
}.

Definition set_hostname (g : generator_t) (h : str) : generator_t :=
  {| pid := pid g; step := step g; mesg := mesg g; hostname := h |}.

(** A slot as [parse_slave_list] creates it: idle, with no message.  The
    source leaves [step] unset until a job is assigned; it is taken as 0. *)
Definition fresh_slot (name : str) : generator_t :=
  {| pid := 0%Z; step := 0%Z; mesg := HMESG_INITIALIZER; hostname := name |}.

(** ** [parse_slave_list] *)

Section SlaveList.
Variable noconv_errno : bool.
(** The bytes that happen to follow the terminator of [hostlist]. *)
Variable junk : str.

(** [head == '\0'] in the source compares the pointer itself with the null
    pointer constant; a pointer into [hostlist] is never null. *)
Definition is_null (p : nat) : bool := false.

Fixpoint memchr (mem : str) (p : nat) (c : ascii) (n : nat) : option nat :=
  match n with
  | O => None
  | S n' => if Ascii.eqb (peek mem p) c then Some p
            else memchr mem (S p) c n'
  end.

(** [while (head < tail && (head == '\0' || isspace( *head))) ++head;] *)
Fixpoint skip_space (mem : str) (fuel head tail : nat) : nat :=
  match fuel with
  | O => head
  | S f =>
      if (head <? tail) && (is_null head || isspace (peek mem head))
      then skip_space mem f (S head) tail else head
  end.

(** [while (head < tail && (head != '\0' && !isspace( *head))) ++head;] *)
Fixpoint skip_host (mem : str) (fuel head tail : nat) : nat :=
  match fuel with
  | O => head
  | S f =>
      if (head <? tail)
         && (negb (is_null head) && negb (isspace (peek mem head)))
      then skip_host mem f (S head) tail else head
  end.

(** [while (gen_list.size()) { ...; gen_list.pop_back(); }] *)
Fixpoint drain (fuel : nat) (gen_list : list generator_t)
  : list generator_t :=
  match fuel with
  | O => gen_list
  | S f => match gen_list with
           | [] => []
           | _ :: _ => drain f (removelast gen_list)
           end
  end.

(** [for (long i = 1; i <= num; ++i) { ...; gen_list.push_back(newgen); }] *)
Fixpoint push_slots (fuel : nat) (host : str) (i num : Z)
    (newgen : generator_t) (gen_list : list generator_t)
  : list generator_t :=
  match fuel with
  | O => gen_list
  | S f =>
      if (i <=? num)%Z
      then push_slots f host (i + 1)%Z num newgen
             (gen_list ++ [set_hostname newgen
                             (host ++ lit "_" ++ string_of_long i)])
      else gen_list
  end.

(** One entry, from [head] to the entry boundary [tail]: the host, the
    number (or -1) and where [head] stands after the trailing blanks. *)
Definition scan_entry (mem : str) (head tail : nat) : str * Z * nat :=
  let head := skip_space mem (tail - head) head tail in
  let host_ptr := head in
  let head := skip_host mem (tail - head) head tail in
  let host := substr mem host_ptr head in
  let head := S head in
  let '(num, num_ptr, err) := strtol noconv_errno mem head in
  let '(num, head) := if err : bool then ((-1)%Z, tail)
                      else (num, num_ptr) in
  let head := skip_space mem (tail - head) head tail in
  (host, num, head).

(** The outer [while (head < end)] loop; [None] only if [fuel] runs out. *)
Fixpoint parse_loop (mem : str) (end_ : nat) (newgen : generator_t)
    (fuel head : nat) (gen_list : list generator_t)
  : option (Z * list generator_t) :=
  match fuel with
  | O => None
  | S f =>
      if head <? end_ then
        let tail := match memchr mem head comma (end_ - head) with
                    | Some t => t
                    | None => end_
                    end in
        let '(host, num, head) := scan_entry mem head tail in
        if empty host || (num =? -1)%Z || negb (head =? tail)
        then Some ((-1)%Z, drain (length gen_list) gen_list)
        else
          parse_loop mem end_ newgen f (S head)
            (push_slots (Z.to_nat num) host 1%Z num newgen gen_list)
      else Some (0%Z, gen_list)
  end.

(** [hostlist] is [None] for a null pointer.  The old registry is emptied
    before parsing starts. *)
Definition parse_slave_list (hostlist : option str)
    (gen_list : list generator_t) : option (Z * list generator_t) :=
  match hostlist with
  | None => Some ((-1)%Z, gen_list)
  | Some s =>
      let gen_list := drain (length gen_list) gen_list in
      let newgen := fresh_slot [] in
      parse_loop (s ++ NUL :: junk) (length s) newgen (S (length s)) 0
        gen_list
  end.
End SlaveList.


(** *** Well-formed host lists, as the grammar [<host> <count>, ...] *)













(** ** [url_parse] *)

Record url_t := {
  url_path : str;
  url_host : str;
  url_user : str;
  url_port : str
}.

Definition set_path (u : url_t) (v : str) : url_t :=
  {| url_path := v; url_host := url_host u; url_user := url_user u;
     url_port := url_port u |}.
Definition set_host (u : url_t) (v : str) : url_t :=
  {| url_path := url_path u; url_host := v; url_user := url_user u;
     url_port := url_port u |}.
Definition set_user (u : url_t) (v : str) : url_t :=
  {| url_path := url_path u; url_host := url_host u; url_user := v;
     url_port := url_port u |}.
Definition set_port (u : url_t) (v : str) : url_t :=
  {| url_path := url_path u; url_host := url_host u; url_user := url_user u;
     url_port := v |}.

(** [s] starts with [needle]. *)
Fixpoint starts_with (needle s : str) : bool :=
  match needle, s with
  | [], _ => true
  | a :: needle', b :: s' => Ascii.eqb a b && starts_with needle' s'
  | _ :: _, [] => false
  end.

(** [strstr(s, needle)] as the offset of the first occurrence. *)
Fixpoint strstr (s needle : str) : option nat :=
  if starts_with needle s then Some 0
  else match s with
       | [] => None
       | _ :: s' => S <$> strstr s' needle
       end.

(** [strchr(s, c)] as an offset, for [c] other than the terminator. *)
Fixpoint strchr (s : str) (c : ascii) : option nat :=
  match s with
  | [] => None
  | a :: s' => if Ascii.eqb a c then Some 0 else S <$> strchr s' c
  end.

(** [strncmp(a, b, n) == 0]: the first [n] characters agree, or both strings
    end before that. *)
Fixpoint strncmp_eq (a b : str) (n : nat) : bool :=
  match n with
  | O => true
  | S n' =>
      match a, b with
      | [], [] => true
      | x :: a', y :: b' => Ascii.eqb x y && strncmp_eq a' b' n'
      | _, _ => false
      end
  end.

(** The [ssh://] branch of [url_parse]; [s] is the text after the scheme. *)
Definition url_parse_ssh (s : str) (url : url_t) : Z * url_t :=
  let '(url, s) :=
    match strchr s "@" with
    | Some i => (set_user url (take i s), drop (S i) s)
    | None => (set_user url [], s)
    end in
  let url :=
    match strchr s ":" with
    | Some i => set_host url (take i s)
    | None => set_port (set_host url []) []
    end in
  match strchr s "/" with
  | None => ((-1)%Z, url)
  | Some i =>
      let url :=
        if empty (url_host url)
        then set_host url (take i s)
        else set_port url (take i s) in
      (0%Z, set_path url (drop (S i) s))
  end.

Definition url_parse (s : str) (url : url_t) : Z * url_t :=
  match strstr s (lit "//") with
  | None => ((-1)%Z, url)
  | Some p =>
      let ptr := p + 2 in
      if strncmp_eq (lit "dir://") s ptr then
        (0%Z, set_host (set_path url (drop ptr s)) [])
      else if strncmp_eq (lit "ssh://") s ptr then
        url_parse_ssh (drop ptr s) url
      else if strncmp_eq (lit "tcp://") s ptr then ((-1)%Z, url)
      else ((-1)%Z, url)
  end.

(** An endpoint written as [ssh://[user@]host[:port]/path]. *)
Definition ssh_uri (user : option str) (host : str) (port : option str)
    (path : str) : str :=
  lit "ssh://"
  ++ match user with Some u => u ++ lit "@" | None => [] end
  ++ host
  ++ match port with Some p => lit ":" ++ p | None => [] end
  ++ lit "/" ++ path.

Definition url0 : url_t :=
  {| url_path := []; url_host := []; url_user := []; url_port := [] |}.

(** ** Files *)

(** The file system: full path to contents, for regular files. *)
Abbreviation fs_t := (gmap str (list Byte.byte)).

Definition infile_name : str := lit "candidate".

(** ** [dir_erase] *)

(** The body of the [readdir] loop for one entry name. *)
Definition dir_erase_entry (dirname initfile : str) (fs : fs_t) (d_name : str)
  : fs_t :=
  if bool_decide (initfile = d_name) then fs
  else if strncmp_eq d_name infile_name (length infile_name)
       then delete (dirname ++ lit "/" ++ d_name) fs
       else fs.

(** [ents] is [None] when [opendir] fails; otherwise it holds the names that
    [readdir] hands out, in its order.  The entries are regular files of a
    writable directory, so [std::remove] takes effect. *)
Definition dir_erase (dirname : str) (ents : option (list str))
    (closedir_ok : bool) (fs : fs_t) : Z * fs_t :=
  match ents with
  | None => ((-1)%Z, fs)
  | Some ents =>
      let initfile := infile_name ++ lit ".-1" in
      let fs := fold_left (dir_erase_entry dirname initfile) ents fs in
      if closedir_ok then (0%Z, fs) else ((-1)%Z, fs)
  end.

(** The names [dir_erase] is after. *)
Definition is_request (d_name : str) : bool :=
  starts_with infile_name d_name
  && negb (bool_decide (d_name = infile_name ++ lit ".-1")).

(** Whether handling the entry [d_name] of [dirname] removes [path]. *)
Definition erases (dirname path d_name : str) : bool :=
  is_request d_name && bool_decide (path = dirname ++ lit "/" ++ d_name).

(** ** The message envelope: [read_loop], [mesg_read], [mesg_write] *)




(** What one call of [read] may do besides handing over all it can. *)
Inductive read_event :=
| RdAtMost (n : nat)   (* a short count: at most [S n] bytes *)
| RdEintr              (* -1 with [errno == EINTR] *)
| RdError.             (* -1 with another [errno] *)

#[global] Instance read_event_eq_dec : EqDecision read_event.
Proof. solve_decision. Defined.









(** Modelled from the spec: [hmesg_scrub] is declared in a header that is
    not among the sources; it clears the message state of a slot, that is
    what an earlier decode attached to the message, and keeps the buffer. *)
Definition hmesg_scrub (m : hmesg_t) : hmesg_t :=
  {| mesg_buf := mesg_buf m; mesg_cand := [] |}.


Section Codec.
(** The protocol's magic number and its decoder are declared in headers
    that are not among the sources. *)
Variable HARMONY_MAGIC : Z.
Variable hmesg_deserialize : hmesg_t -> Z * hmesg_t.

End Codec.

(** The session configuration kept in global variables. *)
Record config := {
  appname : str;
  slave_path : str;
  local_url : url_t;
  reply_url : url_t;
  target_url : url_t
}.







(** ** The generator worker *)

(** The loop of [values_of], over the values [index_value] yields for the
    indices [0 .. idx_cap - 1]. *)
Fixpoint values_loop (vals : list hval_t) (retval : list Z) : list Z :=
  match vals with
  | [] => retval
  | HVAL_INT i :: vals' => values_loop vals' (retval ++ [i])
  | _ :: _ => []
  end.

Definition values_of (pt : list hval_t) : list Z := values_loop pt [].

Definition dquote : ascii := ascii_of_nat 34.
Definition backslash : ascii := ascii_of_nat 92.

Definition spaced (v : list Z) : str :=
  flat_map (fun x => string_of_long x ++ lit " ") v.

Definition vector_to_string (v : list Z) : str := lit " " ++ spaced v.

Definition vector_to_bash_array_remote (v : list Z) : str :=
  [backslash; dquote] ++ spaced v ++ [backslash; dquote] ++ lit " ".

Definition vector_to_bash_array_local (v : list Z) : str :=
  [dquote] ++ spaced v ++ [dquote] ++ lit " ".

(** [s.substr(0, s.find("_"))]: up to the first underscore, or all of [s]. *)
Definition generator_name_of (hostname : str) : str :=
  match strchr hostname "_" with
  | Some i => take i hostname
  | None => hostname
  end.

Definition script_path (cfg : config) (hostname : str) : str :=
  slave_path cfg ++ lit "/" ++ hostname ++ lit "_" ++ appname cfg.

(** The command line built for a slot. *)
Definition generator_command (cfg : config) (gen : generator_t) : str :=
  let values := values_of (mesg_cand (mesg gen)) in
  let generator_name := generator_name_of (hostname gen) in
  let flag := bool_decide (generator_name = url_host (local_url cfg)) in
  (if negb flag then lit "ssh " ++ generator_name ++ lit " " else [])
  ++ lit "exec " ++ script_path cfg (hostname gen)
  ++ lit "/chill_script." ++ appname cfg ++ lit ".sh "
  ++ (if flag then vector_to_bash_array_local values
      else vector_to_bash_array_remote values)
  ++ generator_name ++ lit " "
  ++ script_path cfg (hostname gen) ++ lit " "
  ++ url_host (target_url cfg) ++ lit " "
  ++ url_path (target_url cfg).

Record worker_run := {
  wk_log : str;            (* the line handed to [logger] *)
  wk_cmd : option str;     (* the command handed to [system], if reached *)
  wk_exit : Z              (* the exit code of the worker process *)
}.

(** [generator_main] in the child process.  [log_ok] tells whether [logger]
    could open the log file (it calls [exit(1)] otherwise); [sys_return] is
    what [system] returns for the command. *)
Definition generator_main (cfg : config) (gen : generator_t) (log_ok : bool)
    (sys_return : Z) : worker_run :=
  let values := values_of (mesg_cand (mesg gen)) in
  let line := hostname gen ++ lit ": " ++ vector_to_string values
              ++ [ascii_of_nat 10] in
  if negb log_ok then {| wk_log := line; wk_cmd := None; wk_exit := 1%Z |}
  else
    (* [int sys_return = system(...)]; printed, then [exit(0)] *)
    {| wk_log := line; wk_cmd := Some (generator_command cfg gen);
       wk_exit := 0%Z |}.

(** ** The dispatch loop of [main] *)

(** [WIFEXITED] and [WEXITSTATUS] on a wait status, and the status of a
    process that called [exit(code)]. *)
Definition WIFEXITED (status : Z) : bool := (Z.land status 127 =? 0)%Z.
Definition WEXITSTATUS (status : Z) : Z :=
  Z.shiftr (Z.land status 65280) 8.
Definition W_EXITCODE (code : Z) : Z := Z.shiftl (Z.land code 255) 8.

Definition set_pid (g : generator_t) (p : Z) : generator_t :=
  {| pid := p; step := step g; mesg := mesg g; hostname := hostname g |}.

(** [slave_complete(pid)]: the return value, the registry afterwards, and
    the message and step handed to [mesg_write], if a slot was found. *)
Fixpoint slave_complete (p : Z) (gen_list : list generator_t)
  : Z * list generator_t * option (hmesg_t * Z) :=
  match gen_list with
  | [] => ((-1)%Z, [], None)
  | g :: rest =>
      if (pid g =? p)%Z
      then (0%Z,
            {| pid := 0%Z; step := step g; mesg := hmesg_scrub (mesg g);
               hostname := hostname g |} :: rest,
            Some (mesg g, step g))
      else
        let '(r, rest', w) := slave_complete p rest in
        (r, g :: rest', w)
  end.

(** The first index with [gen_list[i].pid == 0]. *)
Fixpoint find_free (gen_list : list generator_t) : option nat :=
  match gen_list with
  | [] => None
  | g :: rest => if (pid g =? 0)%Z then Some 0 else S <$> find_free rest
  end.

(** [generator_make] in the parent: the slot keeps [fork]'s result only when
    it is a process id. *)
Definition generator_make (g : generator_t) (fork_ret : Z) : generator_t :=
  if (0 <? fork_ret)%Z then set_pid g fork_ret else g.

(** The coordinator's variables, the set of its children that have not been
    waited for, and the steps handed to [mesg_write] so far. *)
Record coord := {
  gen_list : list generator_t;
  timestep : Z;
  num_ready : Z;
  children : gset Z;
  published : list Z
}.

(** What happens in one round of the main loop. *)
Inductive event :=
| EvReap (p : Z)
    (* idle poll: [waitpid(-1, &status, WNOHANG)] returned [p > 0] *)
| EvInit (reached : bool) (hostlist : option str) (rest_ok : bool)
    (* the initialization file was found; [reached] tells whether
       [codeserver_init] got as far as [parse_slave_list], [rest_ok] whether
       the steps after it succeeded *)
| EvPoint (m : hmesg_t) (fork_ret wpid status : Z).
    (* the next point file was found: [m] is what [mesg_read] leaves in the
       slot, [fork_ret] what [fork] returns, and [(wpid, status)] what the
       blocking [waitpid] returns if it is reached *)

Inductive outcome :=
| Running (st : coord)
| Aborted                 (* [assert(0 && "Generator vector overflow")] *)
| Exited (code : Z)       (* [exit(code)] *)
| OutOfFuel.

Definition publish (w : option (hmesg_t * Z)) (log : list Z) : list Z :=
  match w with
  | Some (_, s) => log ++ [s]
  | None => log
  end.

Section MainLoop.
Variable noconv_errno : bool.
Variable junk : str.

Definition main_step (st : coord) (ev : event) : outcome :=
  match ev with
  | EvReap p =>
      let '(r, gl, w) := slave_complete p (gen_list st) in
      Running {| gen_list := gl;
                 timestep := timestep st;
                 num_ready := if (r =? 0)%Z then (num_ready st + 1)%Z
                              else num_ready st;
                 children := children st ∖ {[p]};
                 published := publish w (published st) |}
  | EvInit reached hostlist rest_ok =>
      if negb reached then Running st
      else
        match parse_slave_list noconv_errno junk hostlist (gen_list st) with
        | None => OutOfFuel
        | Some (r, gl) =>
            if (r <? 0)%Z || negb rest_ok
            then Running {| gen_list := gl;
                            timestep := timestep st;
                            num_ready := num_ready st;
                            children := children st;
                            published := published st |}
            else Running {| gen_list := gl;
                            timestep := 0%Z;
                            num_ready := Z.of_nat (length gl);
                            children := children st;
                            published := published st |}
        end
  | EvPoint m fork_ret wpid status =>
      match find_free (gen_list st) with
      | None => Aborted
      | Some i =>
          let gl :=
            alter (fun g =>
                     generator_make
                       {| pid := pid g; step := timestep st; mesg := m;
                          hostname := hostname g |} fork_ret)
                  i (gen_list st) in
          let kids := if (0 <? fork_ret)%Z
                      then children st ∪ {[fork_ret]} else children st in
          let ready := (num_ready st - 1)%Z in
          if (ready =? 0)%Z then
            let kids := kids ∖ {[wpid]} in
            if negb (WIFEXITED status) || negb (WEXITSTATUS status =? 0)%Z
            then Exited 1%Z
            else
              let '(r, gl, w) := slave_complete wpid gl in
              Running {| gen_list := gl;
                         timestep := (timestep st + 1)%Z;
                         num_ready := if (r =? 0)%Z then (ready + 1)%Z
                                      else ready;
                         children := kids;
                         published := publish w (published st) |}
          else
            Running {| gen_list := gl;
                       timestep := (timestep st + 1)%Z;
                       num_ready := ready;
                       children := kids;
                       published := published st |}
      end
  end.

(** What the operating system guarantees about an event in a state: only
    children are reaped, and [fork] returns an id no child holds. *)
Definition ev_ok (st : coord) (ev : event) : Prop :=
  match ev with
  | EvReap p => p ∈ children st
  | EvInit _ _ _ => True
  | EvPoint _ fork_ret wpid _ =>
      (0 < fork_ret -> fork_ret ∉ children st)%Z /\
      (0 < wpid -> wpid ∈ children st \/ (0 < fork_ret /\ wpid = fork_ret))%Z
  end.

(** The coordinator starts with an empty registry and no children;
    [num_ready] is not initialized. *)
Definition start (n0 : Z) : coord :=
  {| gen_list := []; timestep := 0%Z; num_ready := n0;
     children := ∅; published := [] |}.

Inductive reachable : coord -> Prop :=
| reach_start n0 : reachable (start n0)
| reach_step st ev st' :
    reachable st -> ev_ok st ev -> main_step st ev = Running st' ->
    reachable st'.

(** No two slots hold the same nonzero process id. *)
Definition distinct_pids (gl : list generator_t) : Prop :=
  forall i j gi gj,
    gl !! i = Some gi -> gl !! j = Some gj ->
    pid gi = pid gj -> pid gi <> 0%Z -> i = j.

Definition is_init (ev : event) : bool :=
  match ev with EvInit _ _ _ => true | _ => false end.
End MainLoop.

(** ** The two command forms of the external generation command

    [exec <slave_path>/<slot>_<app>/chill_script.<app>.sh <values> <host>
    <working dir> <target host> <target path>], run directly with the
    values in plain double quotes, or through [ssh <host>] with the quotes
    escaped. *)

Definition command_args (cfg : config) (slot logical : str) : str :=
  logical ++ lit " " ++ script_path cfg slot ++ lit " "
  ++ url_host (target_url cfg) ++ lit " " ++ url_path (target_url cfg).

Definition local_form (cfg : config) (slot : str) (values : list Z)
    (logical : str) : str :=
  lit "exec " ++ script_path cfg slot
  ++ lit "/chill_script." ++ appname cfg ++ lit ".sh "
  ++ [dquote] ++ spaced values ++ [dquote] ++ lit " "
  ++ command_args cfg slot logical.

Definition remote_form (cfg : config) (slot : str) (values : list Z)
    (logical : str) : str :=
  lit "ssh " ++ logical ++ lit " "
  ++ lit "exec " ++ script_path cfg slot
  ++ lit "/chill_script." ++ appname cfg ++ lit ".sh "
  ++ [backslash; dquote] ++ spaced values ++ [backslash; dquote] ++ lit " "
  ++ command_args cfg slot logical.

Definition is_int (v : hval_t) : bool :=
  match v with HVAL_INT _ => true | _ => false end.

Definition underscore : ascii := "_"%char.

(** ** Sample configurations used in the examples *)

Definition mk_url (path host user port : string) : url_t :=
  {| url_path := lit path; url_host := lit host; url_user := lit user;
     url_port := lit port |}.

Definition sample_cfg (local_host reply_host : string) : config :=
  {| appname := lit "gemm";
     slave_path := lit "/scratch";
     local_url := mk_url "/inbox" local_host "" "";
     reply_url := mk_url "results" reply_host "tuner" "";
     target_url := mk_url "bin" "target" "" "" |}.

Definition idle_slot (name : string) : generator_t :=
  {| pid := 0%Z; step := 0%Z; mesg := HMESG_INITIALIZER;
     hostname := lit name |}.


(** An envelope of eight bytes: magic [52 61 79 3a], length 8, payload
    [01 02]. *)
Definition sample_buf : list Byte.byte :=
  [Byte.x52; Byte.x61; Byte.x79; Byte.x3a; Byte.x00; Byte.x08;
   Byte.x01; Byte.x02].

Definition sample_mesg : hmesg_t :=
  {| mesg_buf := sample_buf ++ [Byte.x00]; mesg_cand := [HVAL_INT 7] |}.

(** A session with the single slot [node_1], idle, and nothing forked. *)
Definition one_slot : coord :=
  {| gen_list := [idle_slot "node_1"]; timestep := 0%Z; num_ready := 1%Z;
     children := ∅; published := [] |}.

(** What the loop maintains: in addition to [distinct_pids], every busy slot
    holds the id of a child that has not been waited for, and such ids are
    positive. *)
Definition reg_inv (gl : list generator_t) (kids : gset Z) : Prop :=
  distinct_pids gl /\
  (forall g, g ∈ gl -> pid g <> 0%Z -> pid g ∈ kids) /\
  (forall p, p ∈ kids -> (0 < p)%Z).

Definition coord_inv (st : coord) : Prop :=
  reg_inv (gen_list st) (children st).

Definition idle (g : generator_t) : Prop := pid g = 0%Z.

(** The slot as [slave_complete] leaves it. *)
Definition completed (g : generator_t) : generator_t :=
  {| pid := 0%Z; step := step g; mesg := hmesg_scrub (mesg g);
     hostname := hostname g |}.

(** The slot as the dispatch leaves it. *)
Definition dispatched (now : Z) (m : hmesg_t) (fork_ret : Z)
    (g : generator_t) : generator_t :=
  generator_make
    {| pid := pid g; step := now; mesg := m; hostname := hostname g |}
    fork_ret.




(** A short run: a session is initialized with [node 2], then one point is
    dispatched to a worker with process id 100. *)
Definition run_state (st : coord) (ev : event) : coord :=
  match main_step false [] st ev with
  | Running st' => st'
  | _ => st
  end.

Definition demo_init : coord :=
  run_state (start 0) (EvInit true (Some (lit "node 2")) true).

Definition demo_busy : coord :=
  run_state demo_init (EvPoint sample_mesg 100 0 0).


(* ===================================================================== *)
(** * Proofs *)

(** Settle a decidable closed proposition by evaluation. *)
Ltac by_compute := apply (bool_decide_unpack _); vm_compute; exact I.

(** ** Lists *)

Lemma snoc_app {A} (pre : list A) (x : A) (l : list A) :
  pre ++ x :: l = (pre ++ [x]) ++ l.
Proof. by rewrite <- app_assoc. Qed.

Lemma length_snoc {A} (pre : list A) (x : A) :
  length (pre ++ [x]) = S (length pre).
Proof. rewrite length_app; simpl; lia. Qed.

(** ** Characters and string primitives *)

Lemma ascii_eqb_sym (a b : ascii) : Ascii.eqb a b = Ascii.eqb b a.
Proof.
  destruct (Ascii.eqb_spec a b) as [->|Hne].
  - by rewrite Ascii.eqb_refl.
  - symmetry. apply Ascii.eqb_neq. congruence.
Qed.

Lemma strncmp_eq_prefix (pre s : str) :
  strncmp_eq s pre (length pre) = starts_with pre s.
Proof.
  revert s. induction pre as [|a pre IH]; intros s.
  - by destruct s.
  - destruct s as [|b s]; simpl; [done|].
    by rewrite IH, ascii_eqb_sym.
Qed.

Lemma strchr_app_found (xs : str) (c : ascii) (rest : str) :
  c ∉ xs -> strchr (xs ++ c :: rest) c = Some (length xs).
Proof.
  induction xs as [|a xs IH]; intros Hnot; simpl.
  - by rewrite Ascii.eqb_refl.
  - apply not_elem_of_cons in Hnot as [Hne Hnot].
    destruct (Ascii.eqb_spec a c) as [->|_]; [done|].
    by rewrite (IH Hnot).
Qed.

Lemma strchr_not_found (xs : str) (c : ascii) :
  c ∉ xs -> strchr xs c = None.
Proof.
  induction xs as [|a xs IH]; intros Hnot; simpl; [done|].
  apply not_elem_of_cons in Hnot as [Hne Hnot].
  destruct (Ascii.eqb_spec a c) as [->|_]; [done|].
  by rewrite (IH Hnot).
Qed.

(** ** [dir_erase] *)

Section DirErase.
Variable dirname : str.

Lemma dir_erase_entry_lookup (fs : fs_t) (d_name path : str) :
  dir_erase_entry dirname (infile_name ++ lit ".-1") fs d_name !! path
  = if erases dirname path d_name then None else fs !! path.
Proof.
  unfold dir_erase_entry, erases, is_request.
  rewrite strncmp_eq_prefix.
  destruct (decide (infile_name ++ lit ".-1" = d_name)) as [<-|Hne].
  - rewrite !bool_decide_eq_true_2 by done.
    by rewrite andb_false_r.
  - rewrite bool_decide_eq_false_2 by done.
    rewrite (bool_decide_eq_false_2 (d_name = _)) by congruence.
    rewrite andb_true_r.
    destruct (starts_with infile_name d_name); simpl; [|done].
    case_bool_decide as Hp.
    + subst path. apply lookup_delete_eq.
    + by rewrite lookup_delete_ne.
Qed.

Lemma dir_erase_fold_lookup (ents : list str) (fs : fs_t) (path : str) :
  fold_left (dir_erase_entry dirname (infile_name ++ lit ".-1")) ents fs
    !! path
  = if existsb (erases dirname path) ents then None else fs !! path.
Proof.
  revert fs. induction ents as [|d ents IH]; intros fs; simpl; [done|].
  rewrite IH, dir_erase_entry_lookup.
  destruct (erases dirname path d); simpl; [|done].
  by destruct (existsb _ ents).
Qed.
End DirErase.

Lemma dir_erase_lookup (dirname : str) (ents : list str) (closedir_ok : bool)
    (fs : fs_t) (path : str) :
  (dir_erase dirname (Some ents) closedir_ok fs).2 !! path
  = if existsb (erases dirname path) ents then None else fs !! path.
Proof.
  unfold dir_erase.
  transitivity
    (fold_left (dir_erase_entry dirname (infile_name ++ lit ".-1")) ents fs
       !! path); [by destruct closedir_ok|].
  apply dir_erase_fold_lookup.
Qed.

(** C10: clearing the inbox removes exactly the listed files whose names
    begin with [candidate], other than [candidate.-1]; every other file of
    the file system is left as it was. *)
Theorem dir_erase_exact (dirname : str) (ents : list str) (closedir_ok : bool)
    (fs : fs_t) (path : str) :
  (dir_erase dirname (Some ents) closedir_ok fs).2 !! path
  = if existsb (fun d_name =>
                  starts_with (lit "candidate") d_name
                  && negb (bool_decide (d_name = lit "candidate.-1"))
                  && bool_decide (path = dirname ++ lit "/" ++ d_name)) ents
    then None else fs !! path.
Proof. apply dir_erase_lookup. Qed.

(** The initialization file survives, whatever else is in the directory. *)
Lemma dir_erase_keeps_init (dirname : str) (ents : list str) (ok : bool)
    (fs : fs_t) :
  (dir_erase dirname (Some ents) ok fs).2
    !! (dirname ++ lit "/candidate.-1")
  = fs !! (dirname ++ lit "/candidate.-1").
Proof.
  rewrite dir_erase_lookup.
  replace (existsb _ ents) with false; [done|].
  symmetry. apply not_true_is_false. intros Hex.
  apply existsb_exists in Hex as (d & _ & Hd).
  apply andb_prop in Hd as [Hd Hpath].
  apply andb_prop in Hd as [_ Hd].
  apply bool_decide_eq_true_1 in Hpath.
  apply app_inv_head in Hpath.
  injection Hpath as <-.
  apply negb_true_iff, bool_decide_eq_false_1 in Hd. by apply Hd.
Qed.

(** An inbox with two requests, the initialization file and a result. *)
Example dir_erase_inbox :
  let fs : fs_t :=
    list_to_map [(lit "/inbox/candidate.0", [Byte.x01]);
                 (lit "/inbox/candidate.12", [Byte.x02]);
                 (lit "/inbox/candidate.-1", [Byte.x03]);
                 (lit "/inbox/code_complete.0", [Byte.x04])] in
  let ents := [lit "."; lit ".."; lit "candidate.12"; lit "code_complete.0";
               lit "candidate.-1"; lit "candidate.0"] in
  dir_erase (lit "/inbox") (Some ents) true fs
  = (0%Z, list_to_map [(lit "/inbox/candidate.-1", [Byte.x03]);
                       (lit "/inbox/code_complete.0", [Byte.x04])]).
Proof. by vm_compute. Qed.

(** ** The generator worker *)

Lemma values_loop_non_int (pt : list hval_t) (acc : list Z) :
  existsb (fun v => negb (is_int v)) pt = true -> values_loop pt acc = [].
Proof.
  revert acc. induction pt as [|v pt IH]; intros acc Hex; [done|].
  destruct v; simpl in *; [by apply IH | done | done].
Qed.

Lemma values_loop_all_int (pt : list hval_t) (acc : list Z) :
  forallb is_int pt = true ->
  values_loop pt acc
  = acc ++ omap (fun v => match v with HVAL_INT i => Some i | _ => None end) pt.
Proof.
  revert acc. induction pt as [|v pt IH]; intros acc Hall; simpl.
  - by rewrite app_nil_r.
  - destruct v; simpl in *; try done.
    rewrite IH by done. by rewrite <- app_assoc.
Qed.

Lemma generator_command_forms (cfg : config) (gen : generator_t) :
  generator_command cfg gen
  = if bool_decide (generator_name_of (hostname gen) = url_host (local_url cfg))
    then local_form cfg (hostname gen) (values_of (mesg_cand (mesg gen)))
           (generator_name_of (hostname gen))
    else remote_form cfg (hostname gen) (values_of (mesg_cand (mesg gen)))
           (generator_name_of (hostname gen)).
Proof.
  unfold generator_command, local_form, remote_form, command_args,
    vector_to_bash_array_local, vector_to_bash_array_remote.
  case_bool_decide; simpl; by rewrite <- ?app_assoc.
Qed.

Lemma generator_name_of_slot (host sfx : str) :
  underscore ∉ host -> generator_name_of (host ++ underscore :: sfx) = host.
Proof.
  intros Hnot. unfold generator_name_of, underscore in *.
  rewrite (strchr_app_found host _ sfx Hnot).
  by rewrite take_app_length.
Qed.

(** C9: when some value of the point is not an integer, [values_of] yields
    no value at all, and the worker still runs the command, with an empty
    value array, and exits normally. *)
Theorem values_of_non_int_empty (cfg : config) (gen : generator_t)
    (sys_return : Z) :
  existsb (fun v => negb (is_int v)) (mesg_cand (mesg gen)) = true ->
  values_of (mesg_cand (mesg gen)) = [] /\
  vector_to_bash_array_local (values_of (mesg_cand (mesg gen)))
    = [dquote; dquote; " "%char] /\
  vector_to_bash_array_remote (values_of (mesg_cand (mesg gen)))
    = [backslash; dquote; backslash; dquote; " "%char] /\
  generator_main cfg gen true sys_return
  = {| wk_log := hostname gen ++ lit ":  " ++ [ascii_of_nat 10];
       wk_cmd :=
         Some (if bool_decide (generator_name_of (hostname gen)
                               = url_host (local_url cfg))
               then local_form cfg (hostname gen) []
                      (generator_name_of (hostname gen))
               else remote_form cfg (hostname gen) []
                      (generator_name_of (hostname gen)));
       wk_exit := 0%Z |}.
Proof.
  intros Hex.
  assert (Hv : values_of (mesg_cand (mesg gen)) = [])
    by (by apply values_loop_non_int).
  unfold generator_main. rewrite generator_command_forms, Hv.
  by repeat split.
Qed.

Lemma values_of_non_int_empty_witness :
  values_of [HVAL_INT 4; HVAL_REAL 0; HVAL_INT 7] = [] /\
  wk_exit (generator_main (sample_cfg "node" "")
             {| pid := 0%Z; step := 3%Z;
                mesg := {| mesg_buf := [];
                           mesg_cand := [HVAL_INT 4; HVAL_REAL 0; HVAL_INT 7] |};
                hostname := lit "node_1" |} true 0%Z) = 0%Z.
Proof.
  pose proof (values_of_non_int_empty (sample_cfg "node" "")
                {| pid := 0%Z; step := 3%Z;
                   mesg := {| mesg_buf := [];
                              mesg_cand := [HVAL_INT 4; HVAL_REAL 0; HVAL_INT 7] |};
                   hostname := lit "node_1" |} 0%Z eq_refl) as (Hv & _ & _ & Hrun).
  split; [exact Hv | by rewrite Hrun].
Defined.

(** C8 (amended): the host a slot runs on is taken to be the part of the
    slot name before its first underscore.  For a slot [<host>_<suffix>]
    whose host has no underscore this is the host: the command is the local
    form when the host is the local endpoint's host and the remote form,
    behind [ssh <host>], otherwise. *)
Theorem routing_by_first_underscore (cfg : config) (gen : generator_t)
    (host sfx : str) :
  underscore ∉ host ->
  hostname gen = host ++ underscore :: sfx ->
  generator_command cfg gen
  = if bool_decide (host = url_host (local_url cfg))
    then local_form cfg (hostname gen) (values_of (mesg_cand (mesg gen))) host
    else remote_form cfg (hostname gen) (values_of (mesg_cand (mesg gen))) host.
Proof.
  intros Hnot Hname.
  rewrite generator_command_forms, Hname.
  by rewrite (generator_name_of_slot host sfx Hnot).
Qed.

Lemma routing_by_first_underscore_witness :
  generator_command (sample_cfg "node" "") (idle_slot "node_1")
  = local_form (sample_cfg "node" "") (lit "node_1") [] (lit "node") /\
  generator_command (sample_cfg "other" "") (idle_slot "node_1")
  = remote_form (sample_cfg "other" "") (lit "node_1") [] (lit "node").
Proof.
  split.
  - apply (routing_by_first_underscore (sample_cfg "node" "")
             (idle_slot "node_1") (lit "node") (lit "1")).
    + by_compute.
    + reflexivity.
  - apply (routing_by_first_underscore (sample_cfg "other" "")
             (idle_slot "node_1") (lit "node") (lit "1")).
    + by_compute.
    + reflexivity.
Defined.

(** C8, as stated, fails for a host with an underscore in its name: the
    registry accepts [my_host 1], the slot is [my_host_1], and although the
    host is the local one the worker goes through [ssh my]. *)
Lemma routing_underscore_host_counterexample :
  parse_slave_list false [] (Some (lit "my_host 1")) []
    = Some (0%Z, [idle_slot "my_host_1"]) /\
  url_host (local_url (sample_cfg "my_host" "")) = lit "my_host" /\
  generator_command (sample_cfg "my_host" "") (idle_slot "my_host_1")
    = remote_form (sample_cfg "my_host" "") (lit "my_host_1") [] (lit "my") /\
  generator_command (sample_cfg "my_host" "") (idle_slot "my_host_1")
    <> local_form (sample_cfg "my_host" "") (lit "my_host_1") []
         (lit "my_host").
Proof. repeat split; [vm_compute; reflexivity ..|by vm_compute]. Qed.

(** ** [url_parse] *)

Lemma split_at_char (xs : str) (c : ascii) (rest : str) :
  c ∉ xs ->
  strchr (xs ++ c :: rest) c = Some (length xs) /\
  take (length xs) (xs ++ c :: rest) = xs /\
  drop (S (length xs)) (xs ++ c :: rest) = rest.
Proof.
  intros Hnot. split; [by apply strchr_app_found|]. split.
  - by rewrite take_app_length.
  - by rewrite snoc_app, <- (length_snoc xs c), drop_app_length.
Qed.

Lemma url_parse_dir (path : str) (url : url_t) :
  url_parse (lit "dir://" ++ path) url
  = (0%Z, {| url_path := path; url_host := []; url_user := url_user url;
             url_port := url_port url |}).
Proof. reflexivity. Qed.

Lemma url_parse_tcp_rejected (rest : str) (url : url_t) :
  url_parse (lit "tcp://" ++ rest) url = ((-1)%Z, url).
Proof. reflexivity. Qed.

Lemma url_parse_no_slashes (s : str) (url : url_t) :
  strstr s (lit "//") = None -> url_parse s url = ((-1)%Z, url).
Proof. intros H. unfold url_parse. by rewrite H. Qed.

Lemma url_parse_ssh_scheme (rest : str) (url : url_t) :
  url_parse (lit "ssh://" ++ rest) url = url_parse_ssh rest url.
Proof. reflexivity. Qed.

Lemma url_parse_ssh_no_port (user host path : str) (url : url_t) :
  "@"%char ∉ user -> "@"%char ∉ host ++ "/"%char :: path ->
  ":"%char ∉ host ++ "/"%char :: path -> "/"%char ∉ host ->
  url_parse (ssh_uri (Some user) host None path) url
  = (0%Z, {| url_path := path; url_host := host; url_user := user;
             url_port := [] |})
  /\ url_parse (ssh_uri None host None path) url
  = (0%Z, {| url_path := path; url_host := host; url_user := [];
             url_port := [] |}).
Proof.
  intros Hu Hat Hcolon Hslash.
  destruct (split_at_char user "@" (host ++ "/"%char :: path) Hu)
    as (Ea & Eu & Er).
  destruct (split_at_char host "/" path Hslash) as (Es & Eh & Ep).
  unfold ssh_uri. rewrite !url_parse_ssh_scheme. split.
  - rewrite <- app_assoc. simpl. unfold url_parse_ssh.
    rewrite Ea, Eu, Er.
    rewrite (strchr_not_found _ _ Hcolon), Es. simpl.
    by rewrite Eh, Ep.
  - simpl. unfold url_parse_ssh.
    rewrite (strchr_not_found _ _ Hat), (strchr_not_found _ _ Hcolon), Es.
    simpl. by rewrite Eh, Ep.
Qed.

(** C4: with a port in the address the port field does not hold the port
    alone: the text from the start of the host up to the path separator is
    stored, that is [host:port]. *)
Theorem url_parse_port_keeps_host (user host port path : str) (url : url_t) :
  "@"%char ∉ user -> ":"%char ∉ host -> "/"%char ∉ host ->
  "/"%char ∉ port -> host <> [] ->
  url_parse (ssh_uri (Some user) host (Some port) path) url
  = (0%Z, {| url_path := path; url_host := host; url_user := user;
             url_port := host ++ lit ":" ++ port |}).
Proof.
  intros Hu Hcolon Hslash Hport Hhost.
  pose (rest := host ++ ":"%char :: port ++ "/"%char :: path).
  destruct (split_at_char user "@" rest Hu) as (Ea & Eu & Er).
  destruct (split_at_char host ":" (port ++ "/"%char :: path) Hcolon)
    as (Ec & Eh & _).
  assert (Hhp : "/"%char ∉ host ++ ":"%char :: port).
  { rewrite elem_of_app, elem_of_cons. intros [?|[?|?]]; [done| |done].
    discriminate. }
  assert (Erest : rest = (host ++ ":"%char :: port) ++ "/"%char :: path).
  { unfold rest. by rewrite <- app_assoc. }
  destruct (split_at_char _ "/" path Hhp) as (Es & Ehp & Ep).
  rewrite <- Erest in Es, Ehp, Ep.
  unfold ssh_uri. rewrite url_parse_ssh_scheme.
  replace ((user ++ lit "@") ++ host ++ (lit ":" ++ port) ++ lit "/" ++ path)
    with (user ++ "@"%char :: rest)
    by (unfold rest; simpl; by rewrite <- !app_assoc).
  unfold url_parse_ssh. rewrite Ea, Eu, Er, Es.
  fold rest in Ec, Eh. rewrite Ec, Eh.
  simpl. rewrite Ehp, Ep.
  by destruct host.
Qed.

Lemma url_parse_port_keeps_host_witness :
  url_parse (lit "ssh://user@host:22/path") url0
  = (0%Z, mk_url "path" "host" "user" "host:22").
Proof.
  apply (url_parse_port_keeps_host (lit "user") (lit "host") (lit "22")
           (lit "path") url0); try by_compute.
Defined.

(** ** [mesg_write] *)




(** ** A failing generation command *)

(** C1: the worker leaves with [exit(0)] whatever the generation command
    returned, so the blocking wait of the coordinator sees a clean exit: the
    result is published and the loop goes on to the next step. *)
Theorem worker_failure_not_fatal (noconv_errno : bool) (junk : str)
    (cfg : config) (m : hmesg_t) (code : Z) :
  let gen := {| pid := 0%Z; step := 0%Z; mesg := m;
                hostname := lit "node_1" |} in
  let worker := generator_main cfg gen true (W_EXITCODE code) in
  wk_cmd worker = Some (generator_command cfg gen) /\
  wk_exit worker = 0%Z /\
  exists st',
    main_step noconv_errno junk one_slot
      (EvPoint m 100 100 (W_EXITCODE (wk_exit worker))) = Running st' /\
    timestep st' = 1%Z /\ published st' = [0%Z].
Proof.
  intros gen worker. split; [done|]. split; [done|].
  eexists. split; [reflexivity|]. by split.
Qed.

(** The same run with a generation command that fails with exit code 1. *)
Example failing_command_run :
  exists st',
    main_step false [] one_slot
      (EvPoint sample_mesg 100 100
         (W_EXITCODE
            (wk_exit (generator_main (sample_cfg "node" "")
                        (idle_slot "node_1") true (W_EXITCODE 1)))))
    = Running st' /\ timestep st' = 1%Z.
Proof. eexists. split; reflexivity. Qed.

(** Had the worker passed the failure on, the coordinator would stop. *)
Lemma blocking_wait_checks_status (noconv_errno : bool) (junk : str)
    (m : hmesg_t) (code : Z) :
  (0 < code < 256)%Z ->
  main_step noconv_errno junk one_slot (EvPoint m 100 100 (W_EXITCODE code))
  = Exited 1.
Proof.
  intros Hcode. unfold main_step, one_slot. simpl.
  assert (Hst : WEXITSTATUS (W_EXITCODE code) = code).
  { unfold WEXITSTATUS, W_EXITCODE.
    change 255%Z with (Z.ones 8). rewrite Z.land_ones by lia.
    rewrite Z.mod_small by lia.
    change 65280%Z with (Z.shiftl (Z.ones 8) 8).
    rewrite <- Z.shiftl_land, Z.shiftr_shiftl_l by lia.
    rewrite Z.sub_diag, Z.shiftl_0_r, Z.land_ones by lia.
    apply Z.mod_small; lia. }
  rewrite Hst.
  replace (code =? 0)%Z with false by (symmetry; apply Z.eqb_neq; lia).
  by rewrite orb_true_r.
Qed.

(** ** [read_loop] *)



(** ** [mesg_read] *)









(** ** The registry under the dispatch loop *)

Lemma find_free_spec (gl : list generator_t) (i : nat) :
  find_free gl = Some i -> exists g, gl !! i = Some g /\ pid g = 0%Z.
Proof.
  revert i. induction gl as [|g gl IH]; intros i Hfind; [done|].
  simpl in Hfind. destruct (pid g =? 0)%Z eqn:Hpid.
  - injection Hfind as <-. exists g. split; [done|]. by apply Z.eqb_eq.
  - destruct (find_free gl) as [j|]; [|done].
    injection Hfind as <-. by apply IH.
Qed.

(** [slave_complete] clears the first slot that holds [p], if there is one. *)
Lemma slave_complete_alt (p : Z) (gl : list generator_t) :
  (exists i g, gl !! i = Some g /\ pid g = p /\
               slave_complete p gl
               = (0%Z, alter completed i gl, Some (mesg g, step g)))
  \/ (Forall (fun g => pid g <> p) gl /\
      slave_complete p gl = ((-1)%Z, gl, None)).
Proof.
  induction gl as [|g gl IH]; [by right|].
  simpl. destruct (pid g =? p)%Z eqn:Hpid.
  - left. exists 0, g. split; [done|]. split; [by apply Z.eqb_eq | done].
  - apply Z.eqb_neq in Hpid.
    destruct IH as [(i & g' & Hi & Hp & ->)|[Hall ->]].
    + left. by exists (S i), g'.
    + right. split; [by constructor | done].
Qed.

Lemma drain_all (gl : list generator_t) : drain (length gl) gl = [].
Proof.
  remember (length gl) as n eqn:Hn. revert gl Hn.
  induction n as [|n IH]; intros gl Hn.
  - by destruct gl.
  - destruct gl as [|g gl]; [done|].
    cbn [drain]. apply IH.
    rewrite removelast_firstn_len, length_take. simpl in *. lia.
Qed.

Lemma push_slots_idle (fuel : nat) (host : str) (i num : Z)
    (newgen : generator_t) (gl : list generator_t) :
  idle newgen -> Forall idle gl ->
  Forall idle (push_slots fuel host i num newgen gl).
Proof.
  intros Hnew. revert i gl. induction fuel as [|f IH]; intros i gl Hgl; [done|].
  simpl. destruct (i <=? num)%Z; [|done].
  apply IH. apply Forall_app. split; [done|]. by constructor.
Qed.

Lemma parse_loop_idle (nc : bool) (mem : str) (end_ : nat)
    (newgen : generator_t) (fuel head : nat) (gl gl' : list generator_t)
    (r : Z) :
  idle newgen -> Forall idle gl ->
  parse_loop nc mem end_ newgen fuel head gl = Some (r, gl') ->
  Forall idle gl'.
Proof.
  intros Hnew. revert head gl.
  induction fuel as [|f IH]; intros head gl Hgl Hrun; [done|].
  cbn [parse_loop] in Hrun.
  destruct (head <? end_); [|by injection Hrun as _ <-].
  cbv zeta in Hrun.
  destruct (scan_entry _ _ _ _) as [[host num] head'].
  destruct (_ || _ || _).
  - injection Hrun as _ <-. by rewrite drain_all.
  - eapply IH; [|exact Hrun]. by apply push_slots_idle.
Qed.

Lemma parse_slave_list_idle (nc : bool) (junk s : str)
    (gl gl' : list generator_t) (r : Z) :
  parse_slave_list nc junk (Some s) gl = Some (r, gl') -> Forall idle gl'.
Proof.
  unfold parse_slave_list. rewrite drain_all. by apply parse_loop_idle.
Qed.

Lemma reg_inv_idle (gl : list generator_t) (kids : gset Z) :
  Forall idle gl -> (forall p, p ∈ kids -> (0 < p)%Z) -> reg_inv gl kids.
Proof.
  intros Hidle Hpos. split; [|split; [|done]].
  - intros i j gi gj Hi _ _ Hne. exfalso. apply Hne.
    eapply (Forall_lookup_1 idle); eauto.
  - intros g Hg Hne. exfalso. apply Hne.
    rewrite Forall_forall in Hidle. by apply Hidle.
Qed.

Lemma pid_completed (g : generator_t) : pid (completed g) = 0%Z.
Proof. done. Qed.

Lemma pid_dispatched (now : Z) (m : hmesg_t) (f : Z) (g : generator_t) :
  pid (dispatched now m f g) = if (0 <? f)%Z then f else pid g.
Proof. unfold dispatched, generator_make. by destruct (0 <? f)%Z. Qed.

Lemma reg_inv_reap (gl : list generator_t) (kids : gset Z) (p : Z) :
  reg_inv gl kids -> reg_inv (slave_complete p gl).1.2 (kids ∖ {[p]}).
Proof.
  intros (Hdist & Hkids & Hpos).
  destruct (slave_complete_alt p gl) as [(i & g & Hi & Hp & ->)|[Hall ->]];
    cbn [fst snd].
  - split; [|split].
    + intros a b ga gb Ha Hb Heq Hne.
      destruct (decide (a = i)) as [->|Hai].
      { rewrite list_lookup_alter_eq, Hi in Ha. by injection Ha as <-. }
      destruct (decide (b = i)) as [->|Hbi].
      { rewrite list_lookup_alter_eq, Hi in Hb. injection Hb as <-.
        by rewrite pid_completed in Heq. }
      rewrite list_lookup_alter_ne in Ha, Hb by done. eauto.
    + intros g' Hg' Hne.
      apply list_elem_of_lookup in Hg' as [a Ha].
      destruct (decide (a = i)) as [->|Hai].
      { rewrite list_lookup_alter_eq, Hi in Ha. by injection Ha as <-. }
      rewrite list_lookup_alter_ne in Ha by done.
      apply elem_of_difference. split.
      * apply Hkids; [|done]. by eapply list_elem_of_lookup_2.
      * rewrite elem_of_singleton. intros Heq. apply Hai.
        eapply Hdist; eauto. congruence.
    + intros q Hq. apply Hpos. by apply elem_of_difference in Hq as [Hq _].
  - split; [done|]. split.
    + intros g Hg Hne. apply elem_of_difference. split; [by apply Hkids|].
      rewrite elem_of_singleton. rewrite Forall_forall in Hall.
      by apply Hall.
    + intros q Hq. apply Hpos. by apply elem_of_difference in Hq as [Hq _].
Qed.

Lemma reg_inv_dispatch (gl : list generator_t) (kids : gset Z) (i : nat)
    (g : generator_t) (now : Z) (m : hmesg_t) (f : Z) :
  reg_inv gl kids -> gl !! i = Some g -> pid g = 0%Z ->
  ((0 < f)%Z -> f ∉ kids) ->
  reg_inv (alter (dispatched now m f) i gl)
    (if (0 <? f)%Z then kids ∪ {[f]} else kids).
Proof.
  intros (Hdist & Hkids & Hpos) Hi Hfree Hfresh.
  assert (Hnew : forall a ga, a <> i -> gl !! a = Some ga ->
                   pid ga <> 0%Z -> pid ga <> pid (dispatched now m f g)).
  { intros a ga Hai Ha Hne. rewrite pid_dispatched.
    destruct (0 <? f)%Z eqn:Hf; [|congruence].
    apply Z.ltb_lt in Hf. intros Heq. apply (Hfresh Hf). rewrite <- Heq.
    apply Hkids; [|done]. by eapply list_elem_of_lookup_2. }
  split; [|split].
  - intros a b ga gb Ha Hb Heq Hne.
    destruct (decide (a = i)) as [->|Hai], (decide (b = i)) as [->|Hbi];
      [done | | |].
    + rewrite list_lookup_alter_eq, Hi in Ha. injection Ha as <-.
      rewrite list_lookup_alter_ne in Hb by done.
      exfalso. eapply (Hnew b gb); eauto. congruence.
    + rewrite list_lookup_alter_eq, Hi in Hb. injection Hb as <-.
      rewrite list_lookup_alter_ne in Ha by done.
      exfalso. eapply (Hnew a ga); eauto.
    + rewrite list_lookup_alter_ne in Ha, Hb by done. eauto.
  - intros g' Hg' Hne.
    apply list_elem_of_lookup in Hg' as [a Ha].
    destruct (decide (a = i)) as [->|Hai].
    + rewrite list_lookup_alter_eq, Hi in Ha. injection Ha as <-.
      rewrite pid_dispatched in *.
      destruct (0 <? f)%Z; [set_solver | congruence].
    + rewrite list_lookup_alter_ne in Ha by done.
      assert (pid g' ∈ kids)
        by (apply Hkids; [by eapply list_elem_of_lookup_2 | done]).
      destruct (0 <? f)%Z; set_solver.
  - intros q Hq. destruct (0 <? f)%Z eqn:Hf; [|by apply Hpos].
    apply Z.ltb_lt in Hf.
    apply elem_of_union in Hq as [Hq|Hq]; [by apply Hpos|].
    apply elem_of_singleton in Hq. by subst q.
Qed.

Section Dispatch.
Variable noconv_errno : bool.
Variable junk : str.

Lemma main_step_inv (st st' : coord) (ev : event) :
  coord_inv st -> ev_ok st ev ->
  main_step noconv_errno junk st ev = Running st' ->
  coord_inv st'.
Proof.
  unfold coord_inv. intros Hinv Hok Hstep.
  destruct ev as [p|reached hostlist rest_ok|m f wpid status];
    cbn [main_step] in Hstep.
  - (* a worker reaped during the idle poll *)
    pose proof (reg_inv_reap _ _ p Hinv) as Hreap.
    destruct (slave_complete p (gen_list st)) as [[r gl] w].
    by injection Hstep as <-.
  - (* an initialization file *)
    destruct reached; cbn [negb] in Hstep; [|by injection Hstep as <-].
    destruct (parse_slave_list _ _ hostlist _) as [[r gl]|] eqn:Hparse;
      [|done].
    assert (Hgl : reg_inv gl (children st)).
    { destruct hostlist as [s|].
      - apply reg_inv_idle; [by eapply parse_slave_list_idle | apply Hinv].
      - by injection Hparse as _ <-. }
    by destruct (_ || _); injection Hstep as <-.
  - (* a point *)
    destruct (find_free (gen_list st)) as [i|] eqn:Hfree; [|done].
    destruct (find_free_spec _ _ Hfree) as (g & Hi & Hpid).
    destruct Hok as [Hfresh Hwait].
    pose proof (reg_inv_dispatch _ _ i g (timestep st) m f Hinv Hi Hpid
                  Hfresh) as Hdisp.
    fold (dispatched (timestep st) m f) in Hstep.
    destruct (num_ready st - 1 =? 0)%Z; [|by injection Hstep as <-].
    destruct (_ || _); [done|].
    pose proof (reg_inv_reap _ _ wpid Hdisp) as Hreap.
    destruct (slave_complete wpid _) as [[r gl] w].
    by injection Hstep as <-.
Qed.

Lemma reachable_inv (st : coord) :
  reachable noconv_errno junk st -> coord_inv st.
Proof.
  induction 1 as [n0|st ev st' _ IH Hok Hstep].
  - apply reg_inv_idle; [constructor|]. intros p Hp. set_solver.
  - by eapply main_step_inv.
Qed.

(** What a reap does to a busy slot. *)
Lemma busy_slot_reap (gl : list generator_t) (p : Z) (i : nat)
    (g : generator_t) :
  gl !! i = Some g -> pid g <> 0%Z ->
  exists g', (slave_complete p gl).1.2 !! i = Some g'
             /\ hostname g' = hostname g /\ step g' = step g
             /\ ((pid g' = pid g /\ mesg g' = mesg g)
                 \/ (pid g' = 0%Z /\ pid g = p)).
Proof.
  intros Hi Hbusy.
  destruct (slave_complete_alt p gl) as [(j & gj & Hj & Hp & ->)|[_ ->]];
    cbn [fst snd]; [|exists g; by eauto 10].
  destruct (decide (j = i)) as [->|Hne].
  - rewrite list_lookup_alter_eq, Hi. exists (completed g).
    assert (gj = g) by congruence. subst gj. by eauto 10.
  - rewrite list_lookup_alter_ne by done. exists g. by eauto 10.
Qed.

Lemma busy_slot_step (st st' : coord) (ev : event) (i : nat)
    (g : generator_t) :
  coord_inv st -> is_init ev = false ->
  main_step noconv_errno junk st ev = Running st' ->
  gen_list st !! i = Some g -> pid g <> 0%Z ->
  exists g', gen_list st' !! i = Some g'
             /\ hostname g' = hostname g /\ step g' = step g
             /\ ((pid g' = pid g /\ mesg g' = mesg g)
                 \/ (pid g' = 0%Z /\ pid g ∈ children st
                     /\ pid g ∉ children st')).
Proof.
  intros (_ & Hkids & _) Hinit Hstep Hi Hbusy.
  assert (Hchild : pid g ∈ children st)
    by (apply Hkids; [by eapply list_elem_of_lookup_2 | done]).
  destruct ev as [p| |m f wpid status]; [|done|]; cbn [main_step] in Hstep.
  - destruct (busy_slot_reap _ p i g Hi Hbusy)
      as (g' & Hi' & Hh & Hs & Hcase).
    destruct (slave_complete p (gen_list st)) as [[r gl] w].
    injection Hstep as <-. cbn [gen_list children fst snd] in *.
    exists g'. repeat (split; [done|]).
    destruct Hcase as [?|[? <-]]; [by left|]. right.
    split; [done|]. split; [done|].
    rewrite elem_of_difference, elem_of_singleton. tauto.
  - destruct (find_free (gen_list st)) as [j|] eqn:Hfree; [|done].
    destruct (find_free_spec _ _ Hfree) as (gj & Hj & Hpid).
    assert (Hne : j <> i) by (intros ->; congruence).
    match type of Hstep with
    | context [alter ?f j (gen_list st)] =>
        assert (Hi1 : alter f j (gen_list st) !! i = Some g)
          by (by rewrite list_lookup_alter_ne);
        set (gl1 := alter f j (gen_list st)) in *
    end.
    destruct (num_ready st - 1 =? 0)%Z.
    2:{ injection Hstep as <-. exists g. by eauto 10. }
    destruct (_ || _); [done|].
    destruct (busy_slot_reap gl1 wpid i g Hi1 Hbusy)
      as (g' & Hi' & Hh & Hs & Hcase).
    destruct (slave_complete wpid gl1) as [[r gl] w].
    injection Hstep as <-. cbn [gen_list children fst snd] in *.
    exists g'. repeat (split; [done|]).
    destruct Hcase as [?|[? <-]]; [by left|]. right.
    split; [done|]. split; [done|].
    rewrite elem_of_difference, elem_of_singleton. tauto.
Qed.

(** C7: in every state the coordinator can reach, no two slots hold the
    same nonzero process id; the dispatch picks a slot whose pid is 0; and
    a busy slot keeps its job and its pid through every step of the session
    unless that step reaped its worker, which is the only way its pid
    returns to 0. *)
Theorem registry_invariant (st : coord) :
  reachable noconv_errno junk st ->
  distinct_pids (gen_list st) /\
  (forall i, find_free (gen_list st) = Some i ->
             exists g, gen_list st !! i = Some g /\ pid g = 0%Z) /\
  (forall ev st' i g,
      is_init ev = false ->
      main_step noconv_errno junk st ev = Running st' ->
      gen_list st !! i = Some g -> pid g <> 0%Z ->
      exists g', gen_list st' !! i = Some g'
                 /\ hostname g' = hostname g /\ step g' = step g
                 /\ ((pid g' = pid g /\ mesg g' = mesg g)
                     \/ (pid g' = 0%Z /\ pid g ∈ children st
                         /\ pid g ∉ children st'))).
Proof.
  intros Hreach. pose proof (reachable_inv st Hreach) as Hinv.
  split; [apply Hinv|]. split; [apply find_free_spec|].
  intros ev st' i g. by apply busy_slot_step.
Qed.
End Dispatch.

Lemma demo_busy_reachable : reachable false [] demo_busy.
Proof.
  apply (reach_step false [] demo_init (EvPoint sample_mesg 100 0 0)).
  - apply (reach_step false [] (start 0)
             (EvInit true (Some (lit "node 2")) true));
      [apply reach_start | exact I | by vm_compute].
  - split; [intros _; by_compute | lia].
  - by vm_compute.
Qed.

Example demo_busy_slots :
  map (fun g => (string_of_list_ascii (hostname g), pid g, step g))
      (gen_list demo_busy)
  = [("node_1"%string, 100%Z, 0%Z); ("node_2"%string, 0%Z, 0%Z)].
Proof. by vm_compute. Qed.

Lemma registry_invariant_witness :
  reachable false [] demo_busy /\ distinct_pids (gen_list demo_busy).
Proof.
  split; [exact demo_busy_reachable|].
  exact (proj1 (registry_invariant false [] demo_busy demo_busy_reachable)).
Defined.

(** ** Reading the host list buffer *)





(** ** Decimal digits *)










(** ** The scanning loops *)






(** ** [strtol] on a count *)



(** The same facts for a buffer given as [mem = pre ++ xs ++ rest]. *)









(** ** One round of the entry loop *)










(** ** [parse_slave_list] on well-formed and on malformed host lists *)










(** Where the count is missing the outcome depends on the C library: it is
    an error only if [strtol] reports the missing digits through [errno]. *)
Example parse_slave_list_missing_count :
  parse_slave_list false [] (Some (lit "alpha 2, beta ")) []
    = Some (0%Z, [fresh_slot (lit "alpha_1"); fresh_slot (lit "alpha_2")]) /\
  parse_slave_list true [] (Some (lit "alpha 2, beta ")) []
    = Some ((-1)%Z, []).
Proof. split; by vm_compute. Qed.

(** Counts go through [strtol] with base 0: a leading [0] makes the count
    octal and a leading [0x] makes it hexadecimal. *)
Example parse_slave_list_c_literals :
  option_map (fun r => length r.2)
    (parse_slave_list false [] (Some (lit "alpha 010, beta 0x3")) [])
  = Some 11.
Proof. by vm_compute. Qed.

(** An entry that ends with its host sends [strtol] past the terminator;
    whatever lies there, the host list is rejected. *)
Example parse_slave_list_bare_host :
  parse_slave_list false (lit "7") (Some (lit "alpha")) [] = Some ((-1)%Z, [])
  /\ parse_slave_list false [] (Some (lit "alpha")) [] = Some ((-1)%Z, []).
Proof. split; by vm_compute. Qed.

(** ** The entry loop never runs out of fuel *)

Lemma skip_space_ge (mem : str) (fuel : nat) :
  forall head tail, head <= skip_space mem fuel head tail.
Proof.
  induction fuel as [|f IH]; intros head tail; [done|].
  simpl. destruct (_ && _); [|done].
  specialize (IH (S head) tail). lia.
Qed.

Lemma skip_host_ge (mem : str) (fuel : nat) :
  forall head tail, head <= skip_host mem fuel head tail.
Proof.
  induction fuel as [|f IH]; intros head tail; [done|].
  simpl. destruct (_ && _); [|done].
  specialize (IH (S head) tail). lia.
Qed.

Lemma strtol_space_ge (mem : str) (fuel : nat) :
  forall p, p <= strtol_space mem fuel p.
Proof.
  induction fuel as [|f IH]; intros p; [done|].
  simpl. destruct (isspace _); [|done]. specialize (IH (S p)). lia.
Qed.

Lemma strtol_digits_ge (mem : str) (base : Z) (fuel : nat) :
  forall p acc, p <= (strtol_digits mem base fuel p acc).2.
Proof.
  induction fuel as [|f IH]; intros p acc; [done|].
  simpl. destruct (digit_val _) as [d|]; [|done].
  destruct (d <? base)%Z; [|done].
  specialize (IH (S p) (acc * base + d)%Z). lia.
Qed.

Lemma strtol_ge (nc : bool) (mem : str) (nptr : nat) :
  nptr <= (strtol nc mem nptr).1.2.
Proof.
  unfold strtol.
  pose proof (strtol_space_ge mem (S (length mem)) nptr) as H0.
  set (p0 := strtol_space mem (S (length mem)) nptr) in *.
  destruct (Ascii.eqb (peek mem p0) "-");
    [|destruct (Ascii.eqb (peek mem p0) "+")];
    (match goal with
     | |- context [if ?b then (16%Z, _) else _] => destruct b
     end;
     [|match goal with
       | |- context [if ?b then (8%Z, _) else _] => destruct b
       end]);
    match goal with
    | |- context [strtol_digits ?m ?b ?f ?p ?a] =>
        pose proof (strtol_digits_ge m b f p a) as H3;
        destruct (strtol_digits m b f p a) as [acc q]
    end;
    simpl in H3;
    (destruct (q =? _); [simpl; lia|]);
    repeat destruct (_ <? _)%Z; simpl; lia.
Qed.

Lemma memchr_ge (mem : str) (c : ascii) (n : nat) :
  forall p t, memchr mem p c n = Some t -> p <= t.
Proof.
  induction n as [|n IH]; intros p t Hfind; [done|].
  simpl in Hfind. destruct (Ascii.eqb _ _).
  - injection Hfind as <-. lia.
  - apply IH in Hfind. lia.
Qed.

Lemma scan_entry_ge (nc : bool) (mem : str) (head tail : nat) :
  head <= tail -> head <= (scan_entry nc mem head tail).2.
Proof.
  intros Htail. unfold scan_entry.
  pose proof (skip_space_ge mem (tail - head) head tail) as H1.
  set (h1 := skip_space mem (tail - head) head tail) in *.
  pose proof (skip_host_ge mem (tail - h1) h1 tail) as H2.
  set (h2 := skip_host mem (tail - h1) h1 tail) in *.
  pose proof (strtol_ge nc mem (S h2)) as H3.
  destruct (strtol nc mem (S h2)) as [[num num_ptr] err]. simpl in H3.
  destruct err; simpl.
  - pose proof (skip_space_ge mem (tail - tail) tail tail). lia.
  - pose proof (skip_space_ge mem (tail - num_ptr) num_ptr tail). lia.
Qed.

Lemma parse_loop_total (nc : bool) (mem : str) (end_ : nat)
    (newgen : generator_t) (fuel : nat) :
  forall (head : nat) (gl : list generator_t),
    0 < fuel -> end_ < head + fuel ->
    exists r gl', parse_loop nc mem end_ newgen fuel head gl = Some (r, gl').
Proof.
  induction fuel as [|f IH]; intros head gl Hpos Hfuel; [lia|].
  cbn [parse_loop].
  destruct (head <? end_) eqn:Hlt; [|by eauto].
  apply Nat.ltb_lt in Hlt. cbv zeta.
  set (tail := match memchr mem head comma (end_ - head) with
               | Some t => t
               | None => end_
               end).
  assert (Htail : head <= tail).
  { unfold tail. destruct (memchr _ _ _ _) eqn:Hfind; [|lia].
    by eapply memchr_ge. }
  pose proof (scan_entry_ge nc mem head tail Htail) as Hge.
  destruct (scan_entry nc mem head tail) as [[host num] head']. simpl in Hge.
  destruct (_ || _ || _); [by eauto|].
  apply IH; lia.
Qed.

(** [parse_slave_list] always returns. *)
Lemma parse_slave_list_total (nc : bool) (junk : str) (hostlist : option str)
    (old : list generator_t) :
  exists r gl, parse_slave_list nc junk hostlist old = Some (r, gl).
Proof.
  destruct hostlist as [s|]; [|by eauto].
  unfold parse_slave_list. apply parse_loop_total; lia.
Qed.

(** So the main loop never meets the fuel limit. *)
Lemma main_step_fuel (nc : bool) (junk : str) (st : coord) (ev : event) :
  main_step nc junk st ev <> OutOfFuel.
Proof.
  destruct ev as [p|reached hostlist rest_ok|m f wpid status]; simpl.
  - by destruct (slave_complete _ _) as [[? ?] ?].
  - destruct reached; [|done]. simpl.
    destruct (parse_slave_list_total nc junk hostlist (gen_list st))
      as (r & gl & ->).
    by destruct (_ || _).
  - destruct (find_free _); [|done].
    destruct (_ =? _)%Z; [|done].
    destruct (_ || _); [done|].
    by destruct (slave_complete _ _) as [[? ?] ?].
Qed.
